(** * A shallow embedding of the [mqtt_client] facade of async-mqtt5

    The facade lives in [include/async_mqtt5/mqtt_client.hpp].  Every
    asynchronous operation it offers forwards to an operation object of
    the client service ([publish_send_op], [subscribe_op],
    [unsubscribe_op], [ping_op], [read_message_op], [sentry_op],
    [detail::async_disconnect], [client_service::cancel],
    [client_service::async_channel_receive]).  Those operation objects are
    not part of the sources at hand; the definitions that stand for them
    say so in their doc comment and follow the specification of the
    library.

    The client is modelled as a record of explicit state, and every
    facade call as a function [client -> client].  Completion handlers
    are not run: a call of a handler is recorded in the [fired] log as the
    pair (operation, completion values), in the order the calls happen. *)

From Stdlib Require Import List String Bool Arith NArith Lia.
Import ListNotations.

Open Scope N_scope.

(** ** Data *)

(** [qos_e] *)
Inductive qos_e := at_most_once | at_least_once | exactly_once.

Definition qos_level (q : qos_e) : N :=
  match q with at_most_once => 0 | at_least_once => 1 | exactly_once => 2 end.

(** [retain_e] *)
Inductive retain_e := retain_yes | retain_no.

(** [disconnect_rc_e] (the values used by the facade) *)
Inductive disconnect_rc_e := normal_disconnection | disconnect_with_will_message.

Definition disconnect_rc_value (rc : disconnect_rc_e) : N :=
  match rc with normal_disconnection => 0 | disconnect_with_will_message => 4 end.

(** The error codes an operation can complete with. *)
Inductive error_code :=
  | success                       (* errc::success *)
  | operation_aborted             (* asio::error::operation_aborted *)
  | channel_cancelled             (* experimental::error::channel_cancelled *)
  | pid_overrun
  | qos_not_supported
  | retain_not_available
  | topic_alias_maximum_reached
  | packet_too_large
  | session_expired
  | no_recovery.

(** [reason_code]: either the sentinel [reason_codes::empty] or a byte
    received from the Broker. *)
Inductive reason_code := rc_empty | rc_value (v : N).

(** User properties stand for the property sets of SUBSCRIBE,
    UNSUBSCRIBE and DISCONNECT. *)
Definition user_props := list (string * string).
Definition subscribe_props := user_props.
Definition unsubscribe_props := user_props.
Definition disconnect_props := user_props.

(** [publish_props]: the Topic Alias property and the encoded length of
    the whole property section. *)
Record publish_props := mk_publish_props {
  topic_alias : option N;
  props_len : N
}.

(** [subscribe_topic] *)
Record subscribe_topic := mk_subscribe_topic {
  topic_filter : string;
  sub_options : N
}.

(** The limits the Broker announced in CONNACK. *)
Record server_limits := mk_server_limits {
  maximum_qos : N;
  retain_available : bool;
  topic_alias_maximum : N;
  maximum_packet_size : N;
  server_keep_alive : option N
}.

Definition default_limits : server_limits :=
  mk_server_limits 2 true 0 268435460 None.

(** Packets handed to the writer. *)
Inductive packet :=
  | P_publish (pid : option N) (topic payload : string) (q : qos_e)
      (r : retain_e) (props : publish_props)
  | P_subscribe (pid : N) (topics : list subscribe_topic) (props : subscribe_props)
  | P_unsubscribe (pid : N) (topics : list string) (props : unsubscribe_props)
  | P_disconnect (rc : N) (props : disconnect_props).

(** The operations a client has outstanding.  [K_run], [K_ping],
    [K_read] and [K_sentry] are the four operations started by [run()]:
    [open_stream] (connect and handshake), [ping_op] with its interval in
    seconds, [read_message_op] and [sentry_op]. *)
Inductive op_kind :=
  | K_run
  | K_ping (interval : N)
  | K_read
  | K_sentry
  | K_publish (q : qos_e)
  | K_subscribe (topics : list subscribe_topic)
  | K_unsubscribe (topics : list string)
  | K_receive
  | K_disconnect (terminal : bool).

(** The values a completion handler is called with, per signature. *)
Inductive completion :=
  | C_err (ec : error_code)                                  (* void (error_code) *)
  | C_pub (ec : error_code) (rc : reason_code)              (* QoS 1 / QoS 2 publish *)
  | C_sub (ec : error_code) (rcs : list reason_code)        (* subscribe *)
  | C_unsub (ec : error_code) (rcs : list reason_code)      (* unsubscribe *)
  | C_recv (ec : error_code) (topic payload : string).      (* receive *)

Definition completion_error (cm : completion) : error_code :=
  match cm with
  | C_err ec | C_pub ec _ | C_sub ec _ | C_unsub ec _ | C_recv ec _ _ => ec
  end.

(** Modelled from the spec: the operation objects that complete a
    handler with an error ([publish_send_op], [subscribe_op],
    [unsubscribe_op], the receive channel) are not in the sources.  The
    spec gives the error code and one reason code per topic filter; the
    values that come with it are not given by the spec and follow the
    expectations of test/integration/cancellation.cpp: the sentinel
    [reason_codes::empty] for each topic and for a QoS 1 or 2 publish,
    and an empty topic and payload for a receive. *)
Definition complete_with_error (k : op_kind) (ec : error_code) : completion :=
  match k with
  | K_publish at_most_once => C_err ec
  | K_publish _ => C_pub ec rc_empty
  | K_subscribe ts => C_sub ec (repeat rc_empty (List.length ts))
  | K_unsubscribe ts => C_unsub ec (repeat rc_empty (List.length ts))
  | K_receive => C_recv ec "" ""
  | _ => C_err ec
  end.

Record pending_op := mk_op {
  op_id : nat;
  kind_of : op_kind;
  op_pid : option N
}.

Inductive lifecycle := Idle | Running | Cancelled.

Record client := mk_client {
  state : lifecycle;
  keep_alive : N;                 (* keep-alive requested in CONNECT *)
  limits : server_limits;
  pids_in_use : list N;
  pending : list pending_op;
  wire : list packet;             (* packets handed to the writer, in order *)
  inbox : list (string * string); (* received messages not yet taken *)
  fired : list (pending_op * completion);
  next_id : nat
}.

Definition initial_client (ka : N) : client :=
  mk_client Idle ka default_limits [] [] [] [] [] 0.

(** ** Primitive state changes *)

Definition set_state (l : lifecycle) (c : client) : client :=
  mk_client l (keep_alive c) (limits c) (pids_in_use c) (pending c) (wire c)
    (inbox c) (fired c) (next_id c).

Definition set_limits (l : server_limits) (c : client) : client :=
  mk_client (state c) (keep_alive c) l (pids_in_use c) (pending c) (wire c)
    (inbox c) (fired c) (next_id c).

Definition set_pids (ps : list N) (c : client) : client :=
  mk_client (state c) (keep_alive c) (limits c) ps (pending c) (wire c)
    (inbox c) (fired c) (next_id c).

Definition set_inbox (m : list (string * string)) (c : client) : client :=
  mk_client (state c) (keep_alive c) (limits c) (pids_in_use c) (pending c)
    (wire c) m (fired c) (next_id c).

(** Hand a packet to the writer (the FIFO write queue). *)
Definition write (p : packet) (c : client) : client :=
  mk_client (state c) (keep_alive c) (limits c) (pids_in_use c) (pending c)
    (wire c ++ [p]) (inbox c) (fired c) (next_id c).

(** Start a new operation: it takes the next fresh identifier and is
    registered as outstanding. *)
Definition register (k : op_kind) (pid : option N) (c : client) : client :=
  mk_client (state c) (keep_alive c) (limits c) (pids_in_use c)
    (pending c ++ [mk_op (next_id c) k pid]) (wire c) (inbox c) (fired c)
    (S (next_id c)).

(** Start a new operation that completes at once with [cm]
    (the [complete_post] path of the operation objects). *)
Definition complete_now (k : op_kind) (cm : completion) (c : client) : client :=
  mk_client (state c) (keep_alive c) (limits c) (pids_in_use c) (pending c)
    (wire c) (inbox c) (fired c ++ [(mk_op (next_id c) k None, cm)])
    (S (next_id c)).

Definition remove_op (id : nat) (ps : list pending_op) : list pending_op :=
  filter (fun o => negb (Nat.eqb (op_id o) id)) ps.

Definition release_pid (pid : option N) (used : list N) : list N :=
  match pid with
  | Some p => filter (fun q => negb (N.eqb q p)) used
  | None => used
  end.

(** An outstanding operation completes with [cm]: it leaves the
    registry, its packet identifier is released and its handler fires. *)
Definition finish (o : pending_op) (cm : completion) (c : client) : client :=
  mk_client (state c) (keep_alive c) (limits c)
    (release_pid (op_pid o) (pids_in_use c))
    (remove_op (op_id o) (pending c)) (wire c) (inbox c)
    (fired c ++ [(o, cm)]) (next_id c).

Definition find_op (id : nat) (c : client) : option pending_op :=
  find (fun o => Nat.eqb (op_id o) id) (pending c).

Definition find_receive (c : client) : option pending_op :=
  find (fun o => match kind_of o with K_receive => true | _ => false end)
    (pending c).

(** Smallest free packet identifier in [1, 65535]. *)
Fixpoint alloc_from (fuel : nat) (p : N) (used : list N) : option N :=
  match fuel with
  | O => None
  | S f => if existsb (N.eqb p) used then alloc_from f (p + 1) used else Some p
  end.

Definition allocate_pid (c : client) : option N :=
  alloc_from (N.to_nat 65535) 1 (pids_in_use c).

Definition is_cancelled (c : client) : bool :=
  match state c with Cancelled => true | _ => false end.

(** ** [client_service::cancel] *)

(** The handler call of an operation aborted by [cancel]. *)
Definition abort_entry (o : pending_op) : pending_op * completion :=
  (o, complete_with_error (kind_of o) operation_aborted).

(** Modelled from the spec: [client_service::cancel] is not in the
    sources.  The facade documents that all outstanding operations
    complete with [operation_aborted]; the spec adds that the client is
    marked cancelled and the stream is closed without a DISCONNECT. *)
Definition cancel_all (c : client) : client :=
  mk_client Cancelled (keep_alive c) (limits c) [] [] (wire c) (inbox c)
    (fired c ++ map abort_entry (pending c)) (next_id c).

(** ** [publish_send_op] *)

(** Bytes of an MQTT variable byte integer. *)
Definition varint_len (n : N) : N :=
  if n <? 128 then 1 else if n <? 16384 then 2 else if n <? 2097152 then 3 else 4.

Definition publish_remaining_length (q : qos_e) (topic payload : string)
    (props : publish_props) : N :=
  2 + N.of_nat (String.length topic)
  + (match q with at_most_once => 0 | _ => 2 end)
  + varint_len (props_len props) + props_len props
  + N.of_nat (String.length payload).

Definition publish_packet_size (q : qos_e) (topic payload : string)
    (props : publish_props) : N :=
  let rl := publish_remaining_length q topic payload props in
  1 + varint_len rl + rl.

(** Modelled from the spec: [publish_send_op] is not in the sources.
    Pre-send validation against the server limits fails fast, without a
    packet identifier, with the first failing row of the spec's table:
    QoS above [maximum_qos], retain while [retain_available] is false,
    Topic Alias above [topic_alias_maximum], encoded size above
    [maximum_packet_size].  A QoS 0 publish takes no identifier; a QoS 1
    or 2 publish takes the smallest free one or fails with [pid_overrun].
    Operations on a cancelled client complete at once with the
    cancellation error. *)
Definition validate_publish (l : server_limits) (q : qos_e) (r : retain_e)
    (topic payload : string) (props : publish_props) : error_code :=
  if maximum_qos l <? qos_level q then qos_not_supported
  else if (match r with retain_yes => true | retain_no => false end)
          && negb (retain_available l) then retain_not_available
  else if (match topic_alias props with
           | Some a => topic_alias_maximum l <? a
           | None => false
           end) then topic_alias_maximum_reached
  else if maximum_packet_size l <? publish_packet_size q topic payload props
  then packet_too_large
  else success.

(** Modelled from the spec: [mqtt_client::async_publish] initiates
    [publish_send_op{svc_ptr, handler}.perform(topic, payload, retain, props)],
    which is not in the sources; see [validate_publish]. *)
Definition async_publish (q : qos_e) (topic payload : string) (r : retain_e)
    (props : publish_props) (c : client) : client :=
  let k := K_publish q in
  if is_cancelled c then complete_now k (complete_with_error k operation_aborted) c
  else match validate_publish (limits c) q r topic payload props with
  | success =>
      match q with
      | at_most_once => register k None (write (P_publish None topic payload q r props) c)
      | _ =>
          match allocate_pid c with
          | None => complete_now k (complete_with_error k pid_overrun) c
          | Some pid =>
              register k (Some pid)
                (write (P_publish (Some pid) topic payload q r props)
                   (set_pids (pids_in_use c ++ [pid]) c))
          end
      end
  | ec => complete_now k (complete_with_error k ec) c
  end.

(** ** [subscribe_op] and [unsubscribe_op] *)

(** Modelled from the spec: [subscribe_op] and [unsubscribe_op] are not
    in the sources.  They take a packet identifier (or fail with
    [pid_overrun]) and send SUBSCRIBE / UNSUBSCRIBE with all the topics
    of the request. *)
Definition subscribe_perform (ts : list subscribe_topic) (props : subscribe_props)
    (c : client) : client :=
  let k := K_subscribe ts in
  if is_cancelled c then complete_now k (complete_with_error k operation_aborted) c
  else match allocate_pid c with
  | None => complete_now k (complete_with_error k pid_overrun) c
  | Some pid =>
      register k (Some pid)
        (write (P_subscribe pid ts props) (set_pids (pids_in_use c ++ [pid]) c))
  end.

Definition unsubscribe_perform (ts : list string) (props : unsubscribe_props)
    (c : client) : client :=
  let k := K_unsubscribe ts in
  if is_cancelled c then complete_now k (complete_with_error k operation_aborted) c
  else match allocate_pid c with
  | None => complete_now k (complete_with_error k pid_overrun) c
  | Some pid =>
      register k (Some pid)
        (write (P_unsubscribe pid ts props) (set_pids (pids_in_use c ++ [pid]) c))
  end.

(** [mqtt_client::async_subscribe] (vector overload): initiates
    [subscribe_op{impl, handler}.perform(topics, props)]. *)
Definition async_subscribe (topics : list subscribe_topic) (props : subscribe_props)
    (c : client) : client :=
  subscribe_perform topics props c.

(** [mqtt_client::async_subscribe] (single-topic overload):
    [async_subscribe(std::vector<subscribe_topic>{ topic }, props, token)]. *)
Definition async_subscribe_one (topic : subscribe_topic) (props : subscribe_props)
    (c : client) : client :=
  async_subscribe [topic] props c.

(** [mqtt_client::async_unsubscribe] (vector overload). *)
Definition async_unsubscribe (topics : list string) (props : unsubscribe_props)
    (c : client) : client :=
  unsubscribe_perform topics props c.

(** [mqtt_client::async_unsubscribe] (single-topic overload):
    [async_unsubscribe(std::vector<std::string>{ topic }, props, token)]. *)
Definition async_unsubscribe_one (topic : string) (props : unsubscribe_props)
    (c : client) : client :=
  async_unsubscribe [topic] props c.

(** ** [mqtt_client::async_receive] *)

(** Modelled from the spec: [client_service::async_channel_receive] is
    not in the sources.  The inbound channel is a FIFO: a receive takes
    the oldest waiting message, or waits for the next one; a receive on
    a cancelled client completes with [channel_cancelled]. *)
Definition async_receive (c : client) : client :=
  if is_cancelled c then complete_now K_receive (C_recv channel_cancelled "" "") c
  else match inbox c with
  | (t, p) :: rest => complete_now K_receive (C_recv success t p) (set_inbox rest c)
  | [] => register K_receive None c
  end.

(** A PUBLISH delivered by [read_message_op] to the inbound channel. *)
Definition deliver (t p : string) (c : client) : client :=
  match find_receive c with
  | Some o => finish o (C_recv success t p) c
  | None => set_inbox (inbox c ++ [(t, p)]) c
  end.

(** ** Disconnect *)

(** Modelled from the spec: [detail::async_disconnect] is not in the
    sources.  It sends DISCONNECT with the given reason code and
    properties and completes when the write has drained; when its
    [terminal] argument is true the client is then cancelled. *)
Definition detail_async_disconnect (rc : disconnect_rc_e) (props : disconnect_props)
    (terminal : bool) (c : client) : client :=
  let k := K_disconnect terminal in
  if is_cancelled c then complete_now k (C_err operation_aborted) c
  else register k None (write (P_disconnect (disconnect_rc_value rc) props) c).

(** [mqtt_client::async_disconnect(reason_code, props, token)]:
    [detail::async_disconnect(reason_code, props, true, _svc_ptr, token)]. *)
Definition async_disconnect (rc : disconnect_rc_e) (props : disconnect_props)
    (c : client) : client :=
  detail_async_disconnect rc props true c.

(** [mqtt_client::async_disconnect(token)]:
    [async_disconnect(disconnect_rc_e::normal_disconnection, disconnect_props {}, token)]. *)
Definition async_disconnect_default (c : client) : client :=
  async_disconnect normal_disconnection [] c.

(** ** [mqtt_client::run], [cancel] and the destructor *)

(** [static constexpr auto read_timeout = std::chrono::seconds(5);] *)
Definition read_timeout : N := 5.

(** [run()]: [open_stream()], then
    [ping_op{..}.perform(read_timeout - std::chrono::seconds(1))],
    [read_message_op{..}.perform()] and [sentry_op{..}.perform()]. *)
Definition run (c : client) : client :=
  register K_sentry None
    (register K_read None
       (register (K_ping (read_timeout - 1)) None
          (register K_run None (set_state Running c)))).

(** [cancel()]: [get_executor().execute([svc_ptr]{ svc_ptr->cancel(); })];
    the posted function is run by the executor, here at once. *)
Definition cancel (c : client) : client := cancel_all c.

(** [~mqtt_client() { cancel(); }] *)
Definition destroy (c : client) : client := cancel c.

(** Keep-alive in effect after CONNACK, as the spec states it:
    [min(client_requested, server_keep_alive_from_connack)]. *)
Definition keep_alive_used (c : client) : N :=
  match server_keep_alive (limits c) with
  | Some s => N.min (keep_alive c) s
  | None => keep_alive c
  end.

(** ** Replies from the transport and the Broker *)

Inductive reply :=
  | R_written                 (* the write of the operation's packet drained *)
  | R_ack (rc : N)            (* PUBACK / PUBCOMP with its reason code *)
  | R_acks (rcs : list N).    (* SUBACK / UNSUBACK with one reason code per topic *)

(** Modelled from the spec: the completion each operation derives from
    its terminal reply (the acknowledgement handlers of the operation
    objects are not in the sources).  A SUBACK or UNSUBACK whose reason
    codes do not match the topics one to one is malformed and completes
    nothing. *)
Definition on_reply (k : op_kind) (r : reply) : option completion :=
  match k, r with
  | K_publish at_most_once, R_written => Some (C_err success)
  | K_publish at_least_once, R_ack rc => Some (C_pub success (rc_value rc))
  | K_publish exactly_once, R_ack rc => Some (C_pub success (rc_value rc))
  | K_subscribe ts, R_acks rcs =>
      if Nat.eqb (List.length rcs) (List.length ts)
      then Some (C_sub success (map rc_value rcs)) else None
  | K_unsubscribe ts, R_acks rcs =>
      if Nat.eqb (List.length rcs) (List.length ts)
      then Some (C_unsub success (map rc_value rcs)) else None
  | K_disconnect _, R_written => Some (C_err success)
  | _, _ => None
  end.

Definition handle_reply (id : nat) (r : reply) (c : client) : client :=
  match find_op id c with
  | Some o =>
      match on_reply (kind_of o) r with
      | Some cm =>
          let c1 := finish o cm c in
          match kind_of o with K_disconnect true => cancel_all c1 | _ => c1 end
      | None => c
      end
  | None => c
  end.

(** An outstanding operation fails with [ec] (session expired, server
    disconnect, per-operation cancellation). *)
Definition handle_fail (id : nat) (ec : error_code) (c : client) : client :=
  match find_op id c with
  | Some o => finish o (complete_with_error (kind_of o) ec) c
  | None => c
  end.

(** ** Events *)

Inductive event :=
  | E_run
  | E_cancel
  | E_publish (q : qos_e) (topic payload : string) (r : retain_e) (props : publish_props)
  | E_subscribe (ts : list subscribe_topic) (props : subscribe_props)
  | E_subscribe_one (t : subscribe_topic) (props : subscribe_props)
  | E_unsubscribe (ts : list string) (props : unsubscribe_props)
  | E_unsubscribe_one (t : string) (props : unsubscribe_props)
  | E_receive
  | E_disconnect (rc : disconnect_rc_e) (props : disconnect_props)
  | E_disconnect_default
  | E_connack (l : server_limits)
  | E_inbound (topic payload : string)
  | E_reply (id : nat) (r : reply)
  | E_fail (id : nat) (ec : error_code).

Definition step (c : client) (e : event) : client :=
  match e with
  | E_run => run c
  | E_cancel => cancel c
  | E_publish q t p r props => async_publish q t p r props c
  | E_subscribe ts props => async_subscribe ts props c
  | E_subscribe_one t props => async_subscribe_one t props c
  | E_unsubscribe ts props => async_unsubscribe ts props c
  | E_unsubscribe_one t props => async_unsubscribe_one t props c
  | E_receive => async_receive c
  | E_disconnect rc props => async_disconnect rc props c
  | E_disconnect_default => async_disconnect_default c
  | E_connack l => set_limits l c
  | E_inbound t p => deliver t p c
  | E_reply id r => handle_reply id r c
  | E_fail id ec => handle_fail id ec c
  end.

Definition run_events (c : client) (evs : list event) : client :=
  fold_left step evs c.

Inductive reachable : client -> Prop :=
  | r_init ka : reachable (initial_client ka)
  | r_step c e : reachable c -> reachable (step c e).

(** The handler calls recorded for the operation with identifier [id]. *)
Definition entries_of (id : nat) (log : list (pending_op * completion))
    : list (pending_op * completion) :=
  filter (fun e => Nat.eqb (op_id (fst e)) id) log.

(** ** The scripted Broker of the tests: [test_common/message_exchange.hpp]

    [msg_exchange] holds the packets the test expects the client to write
    ([_to_broker], a [std::deque] of [client_message]) and the packets
    the Broker sends on its own ([_from_broker], a [std::vector] of
    [broker_message]).  Builder calls return references into these
    containers; a reference into the deque is its position, which
    [push_back] never moves. *)
Module TestCommon.

(** [duration] in clock ticks. *)
Definition duration := N.

(** [boost::system::error_code] by its value; [error_code {}] is 0. *)
Definition sys_error := N.

Definition bytes := list Byte.byte.

(** [detail::stream_message]: [_ec], [_after], [_content]. *)
Record stream_message := mk_stream_message {
  sm_ec : sys_error;
  sm_after : duration;
  sm_content : bytes
}.

(** [(_content.insert(_content.end(), args.begin(), args.end()), ...)] *)
Fixpoint insert_args (content : bytes) (args : list string) : bytes :=
  match args with
  | [] => content
  | a :: rest => insert_args (content ++ list_byte_of_string a) rest
  end.

(** [stream_message(error_code ec, duration after, Args&& ...args)] *)
Definition make_stream_message (ec : sys_error) (af : duration) (args : list string)
    : stream_message :=
  mk_stream_message ec af (insert_args [] args).

(** The arguments a [delayed_op<error_code, std::vector<uint8_t>>] is
    constructed with, executor apart ([delayed_op.hpp] is not in the
    sources). *)
Record delayed_op := mk_delayed_op {
  op_after : duration;
  op_ec : sys_error;
  op_content : bytes
}.

(** [stream_message::to_operation] *)
Definition to_operation (m : stream_message) : delayed_op :=
  mk_delayed_op (sm_after m) (sm_ec m) (sm_content m).

(** [client_message]: [_write_ec], [_complete_after],
    [_expected_packets], [_replies]. *)
Record client_message := mk_client_message {
  cm_write_ec : sys_error;
  cm_complete_after : duration;
  cm_expected_packets : list string;
  cm_replies : list stream_message
}.

(** [client_message(owner, args...)]: [_write_ec] is [error_code {}] and
    [_complete_after] is [0]. *)
Definition new_client_message (pkts : list string) : client_message :=
  mk_client_message 0 0 pkts [].

(** [client_message::complete_with] *)
Definition complete_with (ec : sys_error) (af : duration) (m : client_message)
    : client_message :=
  mk_client_message ec af (cm_expected_packets m) (cm_replies m).

(** [client_message::reply_with(strings..., duration)]: the last argument
    is the delay, [reply_with_impl(af, strings...)] adds a reply with
    [error_code {}] and the strings as content. *)
Definition reply_with_strings (ss : list string) (af : duration) (m : client_message)
    : client_message :=
  mk_client_message (cm_write_ec m) (cm_complete_after m) (cm_expected_packets m)
    (cm_replies m ++ [make_stream_message 0 af ss]).

(** [client_message::reply_with(error_code, duration)]:
    [reply_with_impl(af, ec)] adds a reply with the error and no content. *)
Definition reply_with_error (ec : sys_error) (af : duration) (m : client_message)
    : client_message :=
  mk_client_message (cm_write_ec m) (cm_complete_after m) (cm_expected_packets m)
    (cm_replies m ++ [make_stream_message ec af []]).

(** [client_message::write_completion]: [delayed_op<error_code>(ex,
    _complete_after, _write_ec)], as the pair (delay, error). *)
Definition write_completion (m : client_message) : duration * sys_error :=
  (cm_complete_after m, cm_write_ec m).

(** [client_message::pop_reply_ops]: the replies turned into operations,
    in order, then [_replies.clear()]. *)
Definition pop_reply_ops (m : client_message) : list delayed_op * client_message :=
  (map to_operation (cm_replies m),
   mk_client_message (cm_write_ec m) (cm_complete_after m) (cm_expected_packets m) []).

(** [broker_message] holds one [stream_message]. *)
Record broker_message := mk_broker_message { bm_message : stream_message }.

(** [broker_message::pop_send_op] *)
Definition pop_send_op (b : broker_message) : delayed_op := to_operation (bm_message b).

Record msg_exchange := mk_msg_exchange {
  to_broker : list client_message;
  from_broker : list broker_message
}.

Definition empty_exchange : msg_exchange := mk_msg_exchange [] [].

(** [msg_exchange::expect]: [_to_broker.emplace_back(this, args...)];
    the returned reference is the position of the new element. *)
Definition expect (pkts : list string) (ex : msg_exchange) : msg_exchange * nat :=
  (mk_msg_exchange (to_broker ex ++ [new_client_message pkts]) (from_broker ex),
   List.length (to_broker ex)).

(** [msg_exchange::send(strings..., duration)]: [send_impl(after, strings...)]. *)
Definition send_strings (ss : list string) (af : duration) (ex : msg_exchange)
    : msg_exchange :=
  mk_msg_exchange (to_broker ex)
    (from_broker ex ++ [mk_broker_message (make_stream_message 0 af ss)]).

(** [msg_exchange::send(error_code, duration)]: [send_impl(after, ec)]. *)
Definition send_error (ec : sys_error) (af : duration) (ex : msg_exchange)
    : msg_exchange :=
  mk_msg_exchange (to_broker ex)
    (from_broker ex ++ [mk_broker_message (make_stream_message ec af [])]).

(** [msg_exchange::pop_reply_action] *)
Definition pop_reply_action (ex : msg_exchange) : option client_message * msg_exchange :=
  match to_broker ex with
  | [] => (None, ex)
  | m :: rest => (Some m, mk_msg_exchange rest (from_broker ex))
  end.

(** [msg_exchange::pop_broker_ops] *)
Definition pop_broker_ops (ex : msg_exchange) : list delayed_op * msg_exchange :=
  (map pop_send_op (from_broker ex), mk_msg_exchange (to_broker ex) []).

(** A call through a [client_message&] reference: the element at that
    position of the deque is modified in place. *)
Fixpoint update_nth {A} (i : nat) (f : A -> A) (l : list A) : list A :=
  match l, i with
  | [], _ => []
  | x :: rest, O => f x :: rest
  | x :: rest, S j => x :: update_nth j f rest
  end.

Definition on_client (i : nat) (f : client_message -> client_message) (ex : msg_exchange)
    : msg_exchange :=
  mk_msg_exchange (update_nth i f (to_broker ex)) (from_broker ex).

(** A builder chain as the tests write it: after [expect(...)] the chain
    holds a [client_message&] and may call [complete_with] and
    [reply_with]; [send(...)] yields a [broker_message&]; both continue
    with [expect] or [send], which [client_message::expect/send] and
    [broker_message::expect/send] forward to the owner. *)
Inductive client_call :=
  | CC_complete_with (ec : sys_error) (af : duration)
  | CC_reply_strings (ss : list string) (af : duration)
  | CC_reply_error (ec : sys_error) (af : duration).

Inductive chain_block :=
  | B_expect (pkts : list string) (calls : list client_call)
  | B_send_strings (ss : list string) (af : duration)
  | B_send_error (ec : sys_error) (af : duration).

Definition apply_call (cc : client_call) : client_message -> client_message :=
  match cc with
  | CC_complete_with ec af => complete_with ec af
  | CC_reply_strings ss af => reply_with_strings ss af
  | CC_reply_error ec af => reply_with_error ec af
  end.

Definition run_block (ex : msg_exchange) (b : chain_block) : msg_exchange :=
  match b with
  | B_expect pkts calls =>
      let (ex1, i) := expect pkts ex in
      fold_left (fun e cc => on_client i (apply_call cc) e) calls ex1
  | B_send_strings ss af => send_strings ss af ex
  | B_send_error ec af => send_error ec af ex
  end.

Definition run_chain (ex : msg_exchange) (bs : list chain_block) : msg_exchange :=
  fold_left run_block bs ex.

(** Pop every expected client message, as [test_broker] does. *)
Fixpoint pop_all (fuel : nat) (ex : msg_exchange) : list client_message :=
  match fuel with
  | O => []
  | S f =>
      match pop_reply_action ex with
      | (Some m, ex') => m :: pop_all f ex'
      | (None, _) => []
      end
  end.

End TestCommon.

(** ** Shape of the handler calls

    [good k cm]: the completion values [cm] fit an operation of kind [k]
    (a subscribe gets one reason code per topic) and an error completion
    carries only [reason_codes::empty]. *)
Definition subscribe_fits (k : op_kind) (cm : completion) : Prop :=
  match k with
  | K_subscribe ts =>
      match cm with C_sub _ rcs => List.length rcs = List.length ts | _ => False end
  | _ => True
  end.

Definition errors_leave_empty (cm : completion) : Prop :=
  match cm with
  | C_sub ec rcs | C_unsub ec rcs => ec <> success -> Forall (fun r => r = rc_empty) rcs
  | C_pub ec rc => ec <> success -> rc = rc_empty
  | _ => True
  end.

Definition good (k : op_kind) (cm : completion) : Prop :=
  subscribe_fits k cm /\ errors_leave_empty cm.

(** How one client state evolves into a later one, seen from the
    operation registry: an operation is registered under the next fresh
    identifier, completes at once under it, an outstanding one finishes,
    or all outstanding ones are aborted. *)
Inductive evolves : client -> client -> Prop :=
  | ev_same c c' :
      pending c' = pending c -> fired c' = fired c -> next_id c' = next_id c ->
      evolves c c'
  | ev_register c c' k p :
      pending c' = pending c ++ [mk_op (next_id c) k p] -> fired c' = fired c ->
      next_id c' = S (next_id c) -> evolves c c'
  | ev_now c c' k cm :
      good k cm -> pending c' = pending c ->
      fired c' = fired c ++ [(mk_op (next_id c) k None, cm)] ->
      next_id c' = S (next_id c) -> evolves c c'
  | ev_finish c c' o cm :
      In o (pending c) -> good (kind_of o) cm ->
      pending c' = remove_op (op_id o) (pending c) ->
      fired c' = fired c ++ [(o, cm)] -> next_id c' = next_id c -> evolves c c'
  | ev_cancel c c' :
      pending c' = [] -> fired c' = fired c ++ map abort_entry (pending c) ->
      next_id c' = next_id c -> evolves c c'
  | ev_trans c1 c2 c3 : evolves c1 c2 -> evolves c2 c3 -> evolves c1 c3.

(** Well-formedness of the registry: identifiers of outstanding
    operations are distinct and below [next_id], so are those of the
    handler calls, and no outstanding operation has fired yet. *)
Definition wf (c : client) : Prop :=
  NoDup (map op_id (pending c)) /\
  Forall (fun o => (op_id o < next_id c)%nat) (pending c) /\
  Forall (fun e => (op_id (fst e) < next_id c)%nat) (fired c) /\
  (forall o, In o (pending c) -> entries_of (op_id o) (fired c) = []).

Definition good_log (c : client) : Prop :=
  Forall (fun e => good (kind_of (fst e)) (snd e)) (fired c).

Create HintDb mqtt.

Lemma ev_refl c : evolves c c.
Proof. apply ev_same; reflexivity. Qed.

Lemma ev_after_same c c' f :
  (forall x, pending (f x) = pending x /\ fired (f x) = fired x /\ next_id (f x) = next_id x) ->
  evolves c c' -> evolves c (f c').
Proof.
  intros Hf H. apply (ev_trans _ c'); [exact H|].
  destruct (Hf c') as (? & ? & ?). apply ev_same; assumption.
Qed.

Lemma ev_after_register c c' k p : evolves c c' -> evolves c (register k p c').
Proof. intros H. apply (ev_trans _ c'); [exact H|]. eapply ev_register; reflexivity. Qed.

Lemma ev_after_now c c' k cm : good k cm -> evolves c c' -> evolves c (complete_now k cm c').
Proof. intros G H. apply (ev_trans _ c'); [exact H|]. eapply ev_now; [exact G| reflexivity..]. Qed.

Lemma ev_after_finish c c' o cm :
  In o (pending c') -> good (kind_of o) cm -> evolves c c' -> evolves c (finish o cm c').
Proof. intros I G H. apply (ev_trans _ c'); [exact H|]. eapply ev_finish; [exact I|exact G|reflexivity..]. Qed.

Lemma ev_after_cancel c c' : evolves c c' -> evolves c (cancel_all c').
Proof. intros H. apply (ev_trans _ c'); [exact H|]. apply ev_cancel; reflexivity. Qed.

Lemma ev_after_write c c' p : evolves c c' -> evolves c (write p c').
Proof. apply ev_after_same. intros; repeat split. Qed.

Lemma ev_after_set_pids c c' ps : evolves c c' -> evolves c (set_pids ps c').
Proof. apply ev_after_same. intros; repeat split. Qed.

Lemma ev_after_set_state c c' l : evolves c c' -> evolves c (set_state l c').
Proof. apply ev_after_same. intros; repeat split. Qed.

Lemma ev_after_set_limits c c' l : evolves c c' -> evolves c (set_limits l c').
Proof. apply ev_after_same. intros; repeat split. Qed.

Lemma ev_after_set_inbox c c' m : evolves c c' -> evolves c (set_inbox m c').
Proof. apply ev_after_same. intros; repeat split. Qed.

Lemma good_complete_with_error k ec : good k (complete_with_error k ec).
Proof.
  unfold good; destruct k as [| | | |[| |]|ts|ts| |]; simpl; try tauto;
    repeat split; intros; try reflexivity;
    try (rewrite repeat_length; reflexivity);
    apply Forall_forall; intros x Hx; eapply repeat_spec; eassumption.
Qed.

Lemma good_on_reply k r cm : on_reply k r = Some cm -> good k cm.
Proof.
  destruct k as [| | | |[| |]|ts|ts| |], r as [|rc|rcs]; simpl; try discriminate;
    try (intros H; injection H as <-; unfold good; simpl; repeat split; congruence).
  - destruct (Nat.eqb_spec (List.length rcs) (List.length ts)) as [E|]; [|discriminate].
    intros H; injection H as <-. unfold good; simpl. rewrite length_map. split; [exact E|congruence].
  - destruct (Nat.eqb (List.length rcs) (List.length ts)); [|discriminate].
    intros H; injection H as <-. unfold good; simpl. split; [exact I|congruence].
Qed.

Lemma good_recv k ec t p : k = K_receive -> good k (C_recv ec t p).
Proof. intros ->. split; exact I. Qed.

Lemma good_err_disconnect b ec : good (K_disconnect b) (C_err ec).
Proof. split; exact I. Qed.

Lemma find_op_some id c o : find_op id c = Some o -> In o (pending c) /\ op_id o = id.
Proof.
  unfold find_op. intros H. apply find_some in H as [I E].
  split; [exact I|]. apply Nat.eqb_eq; exact E.
Qed.

Lemma find_receive_some c o : find_receive c = Some o -> In o (pending c) /\ kind_of o = K_receive.
Proof.
  unfold find_receive. intros H. apply find_some in H as [I E].
  split; [exact I|]. destruct (kind_of o); try discriminate; reflexivity.
Qed.

Global Hint Resolve ev_refl ev_after_register ev_after_now ev_after_cancel
  ev_after_write ev_after_set_pids ev_after_set_state ev_after_set_limits
  ev_after_set_inbox good_complete_with_error good_err_disconnect : mqtt.

Lemma step_evolves c e : evolves c (step c e).
Proof.
  destruct e as [| |q t p r props|ts props|t props|ts props|t props| |rc props| |l|t p|id r|id ec];
    simpl.
  - unfold run. auto 7 with mqtt.
  - unfold cancel. auto with mqtt.
  - unfold async_publish. destruct (is_cancelled c); [auto with mqtt|].
    destruct (validate_publish _ _ _ _ _ _); auto with mqtt.
    destruct q; [auto with mqtt| |];
      destruct (allocate_pid c); auto with mqtt.
  - unfold async_subscribe, subscribe_perform.
    destruct (is_cancelled c); [|destruct (allocate_pid c)]; auto with mqtt.
  - unfold async_subscribe_one, async_subscribe, subscribe_perform.
    destruct (is_cancelled c); [|destruct (allocate_pid c)]; auto with mqtt.
  - unfold async_unsubscribe, unsubscribe_perform.
    destruct (is_cancelled c); [|destruct (allocate_pid c)]; auto with mqtt.
  - unfold async_unsubscribe_one, async_unsubscribe, unsubscribe_perform.
    destruct (is_cancelled c); [|destruct (allocate_pid c)]; auto with mqtt.
  - unfold async_receive. destruct (is_cancelled c).
    + apply ev_after_now; [apply good_recv; reflexivity|auto with mqtt].
    + destruct (inbox c) as [|[t p] rest]; [auto with mqtt|].
      apply ev_after_now; [apply good_recv; reflexivity|auto with mqtt].
  - unfold async_disconnect, detail_async_disconnect.
    destruct (is_cancelled c); auto with mqtt.
  - unfold async_disconnect_default, async_disconnect, detail_async_disconnect.
    destruct (is_cancelled c); auto with mqtt.
  - auto with mqtt.
  - unfold deliver. destruct (find_receive c) as [o|] eqn:F; [|auto with mqtt].
    apply find_receive_some in F as [I K].
    apply ev_after_finish; [exact I|apply good_recv; exact K|auto with mqtt].
  - unfold handle_reply. destruct (find_op id c) as [o|] eqn:F; [|auto with mqtt].
    apply find_op_some in F as [I _].
    destruct (on_reply (kind_of o) r) as [cm|] eqn:R; [|auto with mqtt].
    apply good_on_reply in R.
    assert (evolves c (finish o cm c)) by (apply ev_after_finish; auto with mqtt).
    destruct (kind_of o) as [| | | | | | | |[|]]; auto with mqtt.
  - unfold handle_fail. destruct (find_op id c) as [o|] eqn:F; [|auto with mqtt].
    apply find_op_some in F as [I _].
    apply ev_after_finish; auto with mqtt.
Qed.

Lemma run_events_evolves c evs : evolves c (run_events c evs).
Proof.
  unfold run_events. revert c. induction evs as [|e evs IH]; intros c; simpl.
  - apply ev_refl.
  - apply (ev_trans _ (step c e)); [apply step_evolves|apply IH].
Qed.

(** ** Registry invariants *)

Lemma entries_of_app id a b :
  entries_of id (a ++ b) = entries_of id a ++ entries_of id b.
Proof. unfold entries_of. apply filter_app. Qed.

Lemma entries_of_none id l :
  Forall (fun e => op_id (fst e) <> id) l -> entries_of id l = [].
Proof.
  induction 1 as [|e l H _ IH]; [reflexivity|].
  unfold entries_of in *; simpl.
  destruct (Nat.eqb_spec (op_id (fst e)) id); [contradiction|exact IH].
Qed.

Lemma entries_of_abort_none id ps :
  ~ In id (map op_id ps) -> entries_of id (map abort_entry ps) = [].
Proof.
  intros H. apply entries_of_none. apply Forall_forall.
  intros e He. apply in_map_iff in He as (o & <- & Ho). simpl.
  intros E. apply H. rewrite <- E. apply in_map; exact Ho.
Qed.

Lemma entries_of_abort_one o ps :
  NoDup (map op_id ps) -> In o ps -> entries_of (op_id o) (map abort_entry ps) = [abort_entry o].
Proof.
  induction ps as [|o' ps IH]; simpl; [contradiction|].
  intros ND [<- | I]; inversion ND as [|? ? Nin ND']; subst.
  - unfold entries_of; simpl. rewrite Nat.eqb_refl. f_equal.
    apply entries_of_abort_none. exact Nin.
  - unfold entries_of in *; simpl.
    destruct (Nat.eqb_spec (op_id o') (op_id o)) as [E|_].
    + exfalso. apply Nin. rewrite E. apply in_map; exact I.
    + apply IH; assumption.
Qed.

Lemma NoDup_map_filter {A B} (f : A -> B) (p : A -> bool) l :
  NoDup (map f l) -> NoDup (map f (filter p l)).
Proof.
  induction l as [|a l IH]; simpl; [auto|].
  intros ND; inversion ND as [|? ? Nin ND']; subst.
  destruct (p a); simpl; [|auto].
  constructor; [|auto].
  intros I. apply Nin. apply in_map_iff in I as (x & Ex & Ix).
  apply filter_In in Ix as [Ix _]. rewrite <- Ex. apply in_map; exact Ix.
Qed.

Lemma in_remove_op o id ps : In o (remove_op id ps) <-> In o ps /\ op_id o <> id.
Proof.
  unfold remove_op. rewrite filter_In.
  destruct (Nat.eqb_spec (op_id o) id); simpl; intuition congruence.
Qed.

Lemma wf_preserved c c' : evolves c c' -> wf c -> wf c'.
Proof.
  induction 1 as [c c' P F N|c c' k p P F N|c c' k cm G P F N
                 |c c' o cm I G P F N|c c' P F N|c1 c2 c3 _ IH1 _ IH2];
    [| | | | |tauto]; unfold wf; rewrite ?P, ?F, ?N;
    intros (ND & Lp & Lf & Nf).
  - tauto.
  - rewrite map_app. simpl. split; [|split; [|split]].
    + apply NoDup_app; [exact ND|constructor; [intros []|constructor]|].
      intros x Hx [<-|[]]. apply in_map_iff in Hx as (o & Eo & Io).
      rewrite Forall_forall in Lp. specialize (Lp o Io). lia.
    + apply Forall_app; split.
      * revert Lp; apply Forall_impl; intros; simpl; lia.
      * constructor; [simpl; lia|constructor].
    + revert Lf; apply Forall_impl; intros; simpl; lia.
    + intros o Io. apply in_app_or in Io as [Io|[<-|[]]]; [auto|].
      apply entries_of_none. revert Lf; apply Forall_impl; intros; simpl; lia.
  - split; [exact ND|split; [|split]].
    + revert Lp; apply Forall_impl; intros; simpl; lia.
    + apply Forall_app; split; [revert Lf; apply Forall_impl; intros; simpl; lia|].
      constructor; [simpl; lia|constructor].
    + intros o Io. rewrite entries_of_app, Nf by exact Io.
      apply entries_of_none. constructor; [|constructor].
      rewrite Forall_forall in Lp. specialize (Lp o Io). simpl. lia.
  - split; [apply NoDup_map_filter; exact ND|split; [|split]].
    + apply Forall_forall. intros x Hx. apply in_remove_op in Hx as [Hx _].
      rewrite Forall_forall in Lp. auto.
    + apply Forall_app; split; [exact Lf|].
      constructor; [|constructor]. rewrite Forall_forall in Lp. simpl. auto.
    + intros o' Io'. apply in_remove_op in Io' as [Io' Ne].
      rewrite entries_of_app, Nf by exact Io'.
      apply entries_of_none. constructor; [simpl; congruence|constructor].
  - split; [constructor|split; [constructor|split; [|intros _ []]]].
    apply Forall_app; split; [exact Lf|].
    apply Forall_forall. intros e He. apply in_map_iff in He as (o & <- & Io).
    rewrite Forall_forall in Lp. simpl. auto.
Qed.

Lemma good_log_preserved c c' : evolves c c' -> good_log c -> good_log c'.
Proof.
  unfold good_log.
  induction 1 as [c c' P F N|c c' k p P F N|c c' k cm G P F N
                 |c c' o cm I G P F N|c c' P F N|c1 c2 c3 _ IH1 _ IH2];
    [| | | | |tauto]; rewrite ?F; intros L; try exact L;
    apply Forall_app; split; try exact L.
  - constructor; [exact G|constructor].
  - constructor; [exact G|constructor].
  - apply Forall_forall. intros e He. apply in_map_iff in He as (o & <- & _).
    apply good_complete_with_error.
Qed.

Lemma reachable_wf c : reachable c -> wf c.
Proof.
  induction 1 as [ka|c e _ IH].
  - unfold wf; simpl. split; [constructor|]. split; [constructor|]. split; [constructor|]. intros _ [].
  - eapply wf_preserved; [apply step_evolves|exact IH].
Qed.

Lemma reachable_good_log c : reachable c -> good_log c.
Proof.
  induction 1 as [ka|c e _ IH].
  - constructor.
  - eapply good_log_preserved; [apply step_evolves|exact IH].
Qed.

(** An operation that has fired and left the registry never fires
    again, whatever happens next. *)
Lemma fired_once_stable oid L c c' :
  evolves c c' ->
  (oid < next_id c)%nat /\ ~ In oid (map op_id (pending c)) /\ entries_of oid (fired c) = L ->
  (oid < next_id c')%nat /\ ~ In oid (map op_id (pending c')) /\ entries_of oid (fired c') = L.
Proof.
  induction 1 as [c c' P F N|c c' k p P F N|c c' k cm G P F N
                 |c c' o cm I G P F N|c c' P F N|c1 c2 c3 _ IH1 _ IH2];
    [| | | | |tauto]; rewrite ?P, ?F, ?N; intros (Lt & Nin & E).
  - tauto.
  - split; [lia|split; [|exact E]].
    rewrite map_app. intros Hin. apply in_app_or in Hin as [Hin|[Eq|[]]]; [tauto|].
    simpl in Eq. lia.
  - split; [lia|split; [exact Nin|]].
    rewrite entries_of_app, E, (entries_of_none oid [_]); [apply app_nil_r|].
    constructor; [simpl; lia|constructor].
  - split; [exact Lt|split].
    + intros Hin. apply in_map_iff in Hin as (x & Ex & Ix).
      apply in_remove_op in Ix as [Ix _]. apply Nin. rewrite <- Ex. apply in_map; exact Ix.
    + rewrite entries_of_app, E, (entries_of_none oid [_]); [apply app_nil_r|].
      constructor; [|constructor]. simpl.
      intros Eq. apply Nin. rewrite <- Eq. apply in_map; exact I.
  - split; [exact Lt|split; [intros []|]].
    rewrite entries_of_app, E, entries_of_abort_none by exact Nin. apply app_nil_r.
Qed.

(** Shared by the statements about [cancel] and the destructor. *)
Lemma cancel_then_events c o evs :
  reachable c -> In o (pending c) ->
  entries_of (op_id o) (fired (run_events (cancel_all c) evs)) = [abort_entry o].
Proof.
  intros R I. destruct (reachable_wf c R) as (ND & Lp & _ & Nf).
  eapply fired_once_stable; [apply run_events_evolves|]. simpl.
  split; [rewrite Forall_forall in Lp; auto|split; [intros []|]].
  rewrite entries_of_app, Nf by exact I. apply entries_of_abort_one; assumption.
Qed.

Lemma completion_error_abort o :
  completion_error (snd (abort_entry o)) = operation_aborted.
Proof. destruct o as [id [| | | |[| |]| | | |] p]; reflexivity. Qed.

Lemma reachable_run_events c evs : reachable c -> reachable (run_events c evs).
Proof.
  unfold run_events. revert c. induction evs as [|e evs IH]; intros c R; simpl.
  - exact R.
  - apply IH. apply r_step; exact R.
Qed.

Lemma not_cancelled c : state c <> Cancelled -> is_cancelled c = false.
Proof. unfold is_cancelled. destruct (state c); congruence. Qed.

Lemma find_fresh_last (n : nat) (l : list pending_op) (d : pending_op) :
  Forall (fun o => (op_id o < n)%nat) l -> op_id d = n ->
  find (fun o => Nat.eqb (op_id o) n) (l ++ [d]) = Some d.
Proof.
  intros H Ed. induction H as [|o l Ho _ IH]; simpl.
  - rewrite Ed, Nat.eqb_refl. reflexivity.
  - destruct (Nat.eqb_spec (op_id o) n); [lia|exact IH].
Qed.

(** ** The claims *)

(** Claim C1: after the client-wide [cancel()], every operation
    outstanding at that moment (run and handshake, ping, publish,
    subscribe, unsubscribe, receive) has its completion handler called
    exactly once, with [operation_aborted], whatever happens afterwards. *)
Theorem cancel_fires_each_pending_once (c : client) (o : pending_op) (evs : list event) :
  reachable c -> In o (pending c) ->
  entries_of (op_id o) (fired (run_events (cancel c) evs))
    = [(o, complete_with_error (kind_of o) operation_aborted)]
  /\ completion_error (complete_with_error (kind_of o) operation_aborted) = operation_aborted.
Proof.
  intros R I. split.
  - apply cancel_then_events; assumption.
  - apply (completion_error_abort o).
Qed.

Definition demo_topic : subscribe_topic := mk_subscribe_topic "topic" 0.

Definition demo_running : client :=
  run_events (initial_client 60)
    [E_run; E_subscribe [demo_topic] []; E_receive;
     E_publish at_least_once "topic" "payload" retain_no (mk_publish_props None 0)].

Lemma cancel_fires_each_pending_once_witness :
  In (mk_op 4 (K_subscribe [demo_topic]) (Some 1)) (pending demo_running) /\
  entries_of 4 (fired (run_events (cancel demo_running) [E_reply 4 (R_acks [0%N]); E_cancel]))
    = [(mk_op 4 (K_subscribe [demo_topic]) (Some 1), C_sub operation_aborted [rc_empty])].
Proof.
  split.
  - vm_compute. right; right; right; right; left; reflexivity.
  - apply (cancel_fires_each_pending_once demo_running
             (mk_op 4 (K_subscribe [demo_topic]) (Some 1))
             [E_reply 4 (R_acks [0%N]); E_cancel]).
    + apply reachable_run_events. apply r_init.
    + vm_compute. right; right; right; right; left; reflexivity.
Defined.

(** Claim C8: destroying the client calls [cancel()]; every operation
    still outstanding then completes exactly once with
    [operation_aborted], as after an explicit [cancel()]. *)
Theorem destroy_aborts_each_pending_once (c : client) (o : pending_op) (evs : list event) :
  reachable c -> In o (pending c) ->
  destroy c = cancel c /\
  entries_of (op_id o) (fired (run_events (destroy c) evs))
    = [(o, complete_with_error (kind_of o) operation_aborted)].
Proof.
  intros R I. split; [reflexivity|].
  apply cancel_then_events; assumption.
Qed.

Lemma destroy_aborts_each_pending_once_witness :
  entries_of 6 (fired (run_events (destroy demo_running) []))
    = [(mk_op 6 (K_publish at_least_once) (Some 2), C_pub operation_aborted rc_empty)].
Proof.
  apply (destroy_aborts_each_pending_once demo_running
           (mk_op 6 (K_publish at_least_once) (Some 2)) []).
  - apply reachable_run_events. apply r_init.
  - vm_compute. do 6 right. left; reflexivity.
Defined.




(** Claim C6: the completion handler of a subscribe operation with [n]
    topic filters receives a vector of exactly [n] reason codes, whether
    it completes on SUBACK or with an error such as cancellation. *)
Theorem subscribe_reason_codes_match_topics (c : client) (o : pending_op)
    (cm : completion) (ts : list subscribe_topic) :
  reachable c -> In (o, cm) (fired c) -> kind_of o = K_subscribe ts ->
  exists ec rcs, cm = C_sub ec rcs /\ List.length rcs = List.length ts.
Proof.
  intros R I K. apply reachable_good_log in R. unfold good_log in R.
  rewrite Forall_forall in R. destruct (R _ I) as [F _]. simpl in F.
  unfold subscribe_fits in F. rewrite K in F.
  destruct cm; try contradiction. eauto.
Qed.

Definition demo_two_topics : list subscribe_topic :=
  [mk_subscribe_topic "a/#" 1; mk_subscribe_topic "b" 0].

Lemma subscribe_reason_codes_match_topics_witness :
  exists ec rcs, C_sub operation_aborted [rc_empty; rc_empty] = C_sub ec rcs
                 /\ List.length rcs = List.length demo_two_topics.
Proof.
  apply (subscribe_reason_codes_match_topics
           (run_events (initial_client 60) [E_run; E_subscribe demo_two_topics []; E_cancel])
           (mk_op 4 (K_subscribe demo_two_topics) (Some 1))
           (C_sub operation_aborted [rc_empty; rc_empty]) demo_two_topics).
  - apply reachable_run_events. apply r_init.
  - vm_compute. do 4 right. left; reflexivity.
  - reflexivity.
Defined.

(** Claim C7: [async_disconnect] without a reason code hands a
    DISCONNECT with [normal_disconnection] (0x00) and empty properties to
    the writer, stays outstanding until that write has drained, and then
    completes and leaves the client cancelled. *)
Theorem disconnect_default_sends_normal_then_cancels (c : client) :
  reachable c -> state c <> Cancelled ->
  let c1 := async_disconnect_default c in
  let d := mk_op (next_id c) (K_disconnect true) None in
  wire c1 = wire c ++ [P_disconnect (disconnect_rc_value normal_disconnection) []]
  /\ disconnect_rc_value normal_disconnection = 0
  /\ state c1 = state c /\ In d (pending c1)
  /\ let c2 := handle_reply (next_id c) R_written c1 in
     state c2 = Cancelled /\ pending c2 = []
     /\ entries_of (next_id c) (fired c2) = [(d, C_err success)].
Proof.
  intros R NC. destruct (reachable_wf c R) as (ND & Lp & Lf & _).
  unfold async_disconnect_default, async_disconnect, detail_async_disconnect.
  rewrite (not_cancelled c NC). simpl.
  split; [reflexivity|split; [reflexivity|split; [reflexivity|split]]].
  - apply in_or_app. right. left. reflexivity.
  - unfold handle_reply, find_op. simpl.
    rewrite (find_fresh_last (next_id c) (pending c)) by (assumption || reflexivity).
    simpl. split; [reflexivity|split; [reflexivity|]].
    rewrite !entries_of_app. unfold entries_of at 2. simpl. rewrite Nat.eqb_refl.
    rewrite (entries_of_none _ (fired c)).
    + rewrite entries_of_abort_none; [reflexivity|].
      intros Hin. apply in_map_iff in Hin as (x & Ex & Ix).
      apply in_remove_op in Ix as [Ix Ne]. simpl in Ne. contradiction.
    + revert Lf; apply Forall_impl; intros; lia.
Qed.

Lemma disconnect_default_sends_normal_then_cancels_witness :
  state (handle_reply 4 R_written (async_disconnect_default (run (initial_client 60))))
    = Cancelled.
Proof.
  apply (disconnect_default_sends_normal_then_cancels (run (initial_client 60))).
  - apply (r_step (initial_client 60) E_run). apply r_init.
  - vm_compute. intros H. discriminate H.
Defined.

(** Claim C3 (counterexample): with a client keep-alive of 60 s and a
    server keep-alive of 60 s, the ping operation started by [run()] does
    not use the interval [min(60, 60) - 1 = 59] s. *)
Lemma run_ping_interval_ignores_keep_alive :
  let c := set_limits (mk_server_limits 2 true 0 268435460 (Some 60)) (initial_client 60) in
  keep_alive_used c - 1 = 59 /\
  ~ In (K_ping (keep_alive_used c - 1)) (map kind_of (pending (run c))).
Proof.
  split; [reflexivity|].
  vm_compute. intros H. repeat (destruct H as [H|H]; [discriminate|]). exact H.
Qed.

(** Claim C3 (as amended): [run()] starts, after the operations already
    outstanding, the connection, the ping operation with the fixed
    interval [read_timeout - 1s = 4s], the read loop and the sentry, and
    the interval depends neither on the client's nor on the server's
    keep-alive. *)
Theorem run_starts_ping_with_fixed_interval (c : client) :
  map kind_of (pending (run c))
    = map kind_of (pending c) ++ [K_run; K_ping 4; K_read; K_sentry]
  /\ read_timeout - 1 = 4
  /\ state (run c) = Running.
Proof.
  unfold run, register, set_state; simpl.
  rewrite !map_app, <- !app_assoc. split; [reflexivity|split; reflexivity].
Qed.

Definition no_alias_props : publish_props := mk_publish_props None 0.

(** Claim C4 (counterexample): a retained publish on a server without
    retain support does not complete with [retain_not_available] when
    its QoS is above [maximum_qos] (the QoS check comes first), nor on a
    cancelled client. *)
Lemma retain_rejection_not_unconditional :
  let c := set_limits (mk_server_limits 1 false 0 268435460 None) (initial_client 60) in
  let c' := cancel (set_limits (mk_server_limits 2 false 0 268435460 None) (initial_client 60)) in
  fired (async_publish exactly_once "t" "p" retain_yes no_alias_props c)
    = [(mk_op 0 (K_publish exactly_once) None, C_pub qos_not_supported rc_empty)]
  /\ fired (async_publish at_least_once "t" "p" retain_yes no_alias_props c')
    = [(mk_op 0 (K_publish at_least_once) None, C_pub operation_aborted rc_empty)].
Proof. split; reflexivity. Qed.

(** A publish started on [c] that ended at once, as [c'], with error
    [ec]: one handler call, no packet identifier taken, nothing handed to
    the writer, and the rest of the client state unchanged. *)
Definition rejected_at_once (q : qos_e) (ec : error_code) (c c' : client) : Prop :=
  fired c' = fired c ++ [(mk_op (next_id c) (K_publish q) None,
                          complete_with_error (K_publish q) ec)]
  /\ completion_error (complete_with_error (K_publish q) ec) = ec
  /\ pending c' = pending c /\ pids_in_use c' = pids_in_use c /\ wire c' = wire c
  /\ state c' = state c /\ limits c' = limits c /\ inbox c' = inbox c.

Lemma complete_now_rejected (q : qos_e) (ec : error_code) (c : client) :
  rejected_at_once q ec c (complete_now (K_publish q) (complete_with_error (K_publish q) ec) c).
Proof. destruct q; repeat split. Qed.

(** Claim C4 (as amended): a publish with retain set, to a server that
    announced [retain_available = false], completes at once and without
    side effects (no packet identifier, nothing written, client state
    unchanged).  On a client that is not cancelled it reports
    [retain_not_available] when its QoS does not exceed [maximum_qos],
    and [qos_not_supported] when it does (that check comes first); on a
    cancelled client it reports [operation_aborted]. *)
Theorem retain_unavailable_rejected_without_side_effects
    (c : client) (q : qos_e) (topic payload : string) (props : publish_props) :
  retain_available (limits c) = false ->
  let c' := async_publish q topic payload retain_yes props c in
  (state c <> Cancelled -> qos_level q <= maximum_qos (limits c) ->
     rejected_at_once q retain_not_available c c')
  /\ (state c <> Cancelled -> maximum_qos (limits c) < qos_level q ->
     rejected_at_once q qos_not_supported c c')
  /\ (state c = Cancelled -> rejected_at_once q operation_aborted c c').
Proof.
  intros RA c'. subst c'. unfold async_publish, validate_publish.
  split; [|split].
  - intros NC Q. rewrite (not_cancelled c NC), RA.
    replace (maximum_qos (limits c) <? qos_level q) with false
      by (symmetry; apply N.ltb_ge; exact Q).
    apply complete_now_rejected.
  - intros NC Q. rewrite (not_cancelled c NC).
    replace (maximum_qos (limits c) <? qos_level q) with true
      by (symmetry; apply N.ltb_lt; exact Q).
    apply complete_now_rejected.
  - intros C. unfold is_cancelled. rewrite C. apply complete_now_rejected.
Qed.

Lemma retain_unavailable_rejected_without_side_effects_witness :
  wire (async_publish at_least_once "t" "p" retain_yes no_alias_props
          (set_limits (mk_server_limits 1 false 0 268435460 None) (initial_client 60)))
    = [].
Proof.
  destruct (retain_unavailable_rejected_without_side_effects
              (set_limits (mk_server_limits 1 false 0 268435460 None) (initial_client 60))
              at_least_once "t" "p" no_alias_props) as [H _].
  - reflexivity.
  - apply H.
    + discriminate.
    + apply N.leb_le. reflexivity.
Defined.

(** Claim C9: the single-topic [async_subscribe] and
    [async_unsubscribe] overloads behave as the vector overloads on the
    one-element vector: same state, same packets, and the same
    completions for every continuation. *)
Theorem single_topic_overloads_are_singleton_calls :
  (forall (c : client) (t : subscribe_topic) (props : subscribe_props) (evs : list event),
     run_events (async_subscribe_one t props c) evs
     = run_events (async_subscribe [t] props c) evs)
  /\ (forall (c : client) (t : string) (props : unsubscribe_props) (evs : list event),
     run_events (async_unsubscribe_one t props c) evs
     = run_events (async_unsubscribe [t] props c) evs).
Proof. split; intros; reflexivity. Qed.

(** ** Properties of the scripted Broker of the tests *)
Module TestCommonFacts.
Import TestCommon.

(** What a chain builds for one [expect(...)] block: the new message
    with the block's calls applied in order. *)
Definition expected_message (pkts : list string) (calls : list client_call) : client_message :=
  fold_left (fun m cc => apply_call cc m) calls (new_client_message pkts).

Definition expected_to_broker (bs : list chain_block) : list client_message :=
  flat_map (fun b => match b with
                     | B_expect pkts calls => [expected_message pkts calls]
                     | _ => []
                     end) bs.

Definition expected_from_broker (bs : list chain_block) : list broker_message :=
  flat_map (fun b => match b with
                     | B_send_strings ss af => [mk_broker_message (make_stream_message 0 af ss)]
                     | B_send_error ec af => [mk_broker_message (make_stream_message ec af [])]
                     | B_expect _ _ => []
                     end) bs.

(** The last [complete_with] of a block, if any. *)
Definition last_complete_with (calls : list client_call) : option (sys_error * duration) :=
  fold_left (fun acc cc => match cc with
                           | CC_complete_with ec af => Some (ec, af)
                           | _ => acc
                           end) calls None.

(** The reply operations a block's [reply_with] calls stand for. *)
Definition reply_ops_of (calls : list client_call) : list delayed_op :=
  flat_map (fun cc => match cc with
                      | CC_reply_strings ss af =>
                          [mk_delayed_op af 0 (List.concat (map list_byte_of_string ss))]
                      | CC_reply_error ec af => [mk_delayed_op af ec []]
                      | CC_complete_with _ _ => []
                      end) calls.

Lemma update_nth_last {A} (f : A -> A) (l : list A) (x : A) :
  update_nth (List.length l) f (l ++ [x]) = l ++ [f x].
Proof. induction l as [|y l IH]; simpl; [reflexivity|rewrite IH; reflexivity]. Qed.

Lemma fold_on_client_last (l : list client_message) (fb : list broker_message)
    (m : client_message) (calls : list client_call) :
  fold_left (fun e cc => on_client (List.length l) (apply_call cc) e) calls
    (mk_msg_exchange (l ++ [m]) fb)
  = mk_msg_exchange (l ++ [fold_left (fun m cc => apply_call cc m) calls m]) fb.
Proof.
  revert m. induction calls as [|cc calls IH]; intros m; simpl; [reflexivity|].
  unfold on_client at 2. simpl. rewrite update_nth_last. apply IH.
Qed.

Lemma insert_args_app (content : bytes) (args : list string) :
  insert_args content args = content ++ List.concat (map list_byte_of_string args).
Proof.
  revert content. induction args as [|a args IH]; intros content; simpl.
  - rewrite app_nil_r; reflexivity.
  - rewrite IH, app_assoc; reflexivity.
Qed.

Lemma list_byte_of_string_length (s : string) :
  List.length (list_byte_of_string s) = String.length s.
Proof.
  unfold list_byte_of_string. rewrite length_map.
  induction s as [|a s IH]; simpl; [reflexivity|rewrite IH; reflexivity].
Qed.

Lemma run_chain_contents (ex : msg_exchange) (bs : list chain_block) :
  to_broker (run_chain ex bs) = to_broker ex ++ expected_to_broker bs
  /\ from_broker (run_chain ex bs) = from_broker ex ++ expected_from_broker bs.
Proof.
  unfold run_chain. revert ex. induction bs as [|b bs IH]; intros ex; simpl.
  - rewrite !app_nil_r. split; reflexivity.
  - destruct (IH (run_block ex b)) as [H1 H2]. rewrite H1, H2.
    destruct b as [pkts calls|ss af|ec af]; simpl.
    + rewrite fold_on_client_last. simpl. rewrite <- !app_assoc. split; reflexivity.
    + rewrite <- !app_assoc. split; reflexivity.
    + rewrite <- !app_assoc. split; reflexivity.
Qed.

(** A builder chain run on an exchange appends, in chain order, one
    client message per [expect] block, carrying exactly that block's
    [complete_with] and [reply_with] calls, and one Broker message per
    [send] block; nothing already in the exchange changes. *)
Theorem run_chain_appends_in_order (ex : msg_exchange) (bs : list chain_block) :
  to_broker (run_chain ex bs) = to_broker ex ++ expected_to_broker bs
  /\ from_broker (run_chain ex bs) = from_broker ex ++ expected_from_broker bs.
Proof. apply run_chain_contents. Qed.

(** [pop_reply_action] hands out the expected client messages front
    first, in the order they are stored, and stops with [nullopt] once
    the deque is empty. *)
Theorem pop_reply_action_drains_in_order (ex : msg_exchange) (n : nat) :
  (List.length (to_broker ex) <= n)%nat ->
  pop_all n ex = to_broker ex
  /\ fst (pop_reply_action (mk_msg_exchange [] (from_broker ex))) = None.
Proof.
  intros Hn. split; [|reflexivity].
  destruct ex as [tb fb]. simpl in *. revert tb Hn.
  induction n as [|n IH]; intros tb Hn; simpl.
  - destruct tb; [reflexivity|simpl in Hn; lia].
  - unfold pop_reply_action; simpl. destruct tb as [|m rest]; [reflexivity|].
    f_equal. apply IH. simpl in Hn. lia.
Qed.

Definition demo_chain : list chain_block :=
  [B_expect ["connect"%string] [CC_complete_with 0 1; CC_reply_strings ["connack"%string] 2];
   B_send_strings ["publish"%string] 3;
   B_expect ["publish"%string] [CC_reply_error 107 2]].

Lemma pop_reply_action_drains_in_order_witness :
  pop_all 2 (run_chain empty_exchange demo_chain)
  = [mk_client_message 0 1 ["connect"%string] [make_stream_message 0 2 ["connack"%string]];
     mk_client_message 0 0 ["publish"%string] [make_stream_message 107 2 []]].
Proof.
  apply (pop_reply_action_drains_in_order (run_chain empty_exchange demo_chain) 2).
  vm_compute. lia.
Defined.

(** The write of an expected packet completes with the error and delay
    of the last [complete_with] of its chain, and with [error_code {}]
    after 0 when the chain has none. *)
Theorem write_completion_last_complete_with (pkts : list string) (calls : list client_call) :
  write_completion (expected_message pkts calls)
  = match last_complete_with calls with
    | Some (ec, af) => (af, ec)
    | None => (0, 0)
    end.
Proof.
  unfold expected_message, last_complete_with.
  induction calls as [|cc calls IH] using rev_ind; [reflexivity|].
  rewrite !fold_left_app. simpl.
  destruct cc as [ec af|ss af|ec af]; simpl; [reflexivity|exact IH|exact IH].
Qed.

Lemma expected_message_fields (pkts : list string) (calls : list client_call) :
  cm_expected_packets (expected_message pkts calls) = pkts
  /\ map to_operation (cm_replies (expected_message pkts calls)) = reply_ops_of calls.
Proof.
  unfold expected_message, reply_ops_of.
  induction calls as [|cc calls IH] using rev_ind; [split; reflexivity|].
  rewrite fold_left_app, flat_map_app. destruct IH as [IH1 IH2].
  destruct cc as [ec af|ss af|ec af]; simpl; rewrite ?map_app, ?IH2, ?app_nil_r;
    split; try exact IH1; try reflexivity.
  simpl. unfold to_operation, make_stream_message. simpl.
  rewrite insert_args_app. reflexivity.
Qed.

(** [pop_reply_ops] on an expected message returns one operation per
    [reply_with] of its chain, in order: a reply of strings carries
    [error_code {}] and the strings' bytes back to back, an error reply
    carries the error and no bytes, each with its own delay.  The
    message keeps its expected packets and write completion, and a
    second [pop_reply_ops] returns nothing. *)
Theorem pop_reply_ops_in_order_then_empty (pkts : list string) (calls : list client_call) :
  let (ops, m') := pop_reply_ops (expected_message pkts calls) in
  ops = reply_ops_of calls
  /\ cm_expected_packets m' = pkts
  /\ write_completion m' = write_completion (expected_message pkts calls)
  /\ fst (pop_reply_ops m') = [].
Proof.
  destruct (expected_message_fields pkts calls) as [E1 E2].
  unfold pop_reply_ops. simpl. rewrite E1, E2. repeat split.
Qed.

(** A [stream_message] built from strings holds their bytes back to
    back, in argument order: its size is the sum of their lengths. *)
Theorem stream_message_content_concat (ec : sys_error) (af : duration) (args : list string) :
  sm_content (make_stream_message ec af args) = List.concat (map list_byte_of_string args)
  /\ List.length (sm_content (make_stream_message ec af args))
     = list_sum (map String.length args).
Proof.
  unfold make_stream_message. simpl. rewrite insert_args_app. simpl. split; [reflexivity|].
  induction args as [|a args IH]; simpl; [reflexivity|].
  rewrite length_app, list_byte_of_string_length, IH. reflexivity.
Qed.

Definition send_ops_of (bs : list chain_block) : list delayed_op :=
  flat_map (fun b => match b with
                     | B_send_strings ss af =>
                         [mk_delayed_op af 0 (List.concat (map list_byte_of_string ss))]
                     | B_send_error ec af => [mk_delayed_op af ec []]
                     | B_expect _ _ => []
                     end) bs.

(** [pop_broker_ops] after a builder chain returns the Broker's own
    messages in [send] order (strings as bytes with [error_code {}], an
    error with no bytes), leaves the expected client messages alone and
    empties the Broker side: a second call returns nothing. *)
Theorem pop_broker_ops_in_send_order (bs : list chain_block) :
  let (ops, ex') := pop_broker_ops (run_chain empty_exchange bs) in
  ops = send_ops_of bs
  /\ to_broker ex' = expected_to_broker bs
  /\ fst (pop_broker_ops ex') = [].
Proof.
  destruct (run_chain_contents empty_exchange bs) as [E1 E2]. simpl in E1, E2.
  unfold pop_broker_ops. simpl. rewrite E1, E2. split; [|split; reflexivity].
  unfold expected_from_broker, send_ops_of. rewrite flat_map_concat_map, concat_map, map_map.
  rewrite flat_map_concat_map. f_equal. apply map_ext. intros [pkts calls|ss af|ec af]; simpl;
    [reflexivity| |reflexivity].
  unfold pop_send_op, to_operation, make_stream_message. simpl.
  rewrite insert_args_app. reflexivity.
Qed.

End TestCommonFacts.
